(** * 3D-with-JavaScript: the wireframe mesh, its rotations and its drawing

    A shallow embedding of [index.js].  JavaScript numbers are idealised as
    the real numbers [R]; [Math.cos], [Math.sin] and [Math.PI] are [cos],
    [sin] and [PI].  [Node] objects are mutable and shared: the [nodes]
    array of a [Mesh] and the two fields of every [Edge] hold references to
    them, so nodes live in a heap and are named by locations. *)

From Stdlib Require Import Reals Lra Lia String List Bool Arith.
Import ListNotations.
Open Scope R_scope.

(** ** Settings *)

Record Colors := { node : string; edge : string }.

Definition colors : Colors := {| node := "green"; edge := "blue" |}.

Definition NODE_SIZE : R := 3.
Definition PIXELS_PER_UNIT : R := 100.

Definition canvas_width : R := 600.
Definition canvas_height : R := 600.

(** ** The 2D context

    The context is the drawing surface the program calls into.  It is
    modelled by the sequence of everything the program does to it, oldest
    first: assignments to [fillStyle] and [strokeStyle] and method calls. *)

Inductive CtxOp :=
| SetFillStyle (s : string)
| SetStrokeStyle (s : string)
| BeginPath
| Arc (x y radius startAngle endAngle : R)
| Fill
| MoveTo (x y : R)
| LineTo (x y : R)
| Stroke
| Translate (x y : R)
| ClearRect (x y w h : R).

Definition Ctx := list CtxOp.

(** [circle(x, y, radius)] *)
Definition circle (x y radius : R) (ctx : Ctx) : Ctx :=
  ctx ++ [BeginPath; Arc x y radius 0 (2 * PI); Fill].

(** [line(x1, y1, x2, y2)] *)
Definition line (x1 y1 x2 y2 : R) (ctx : Ctx) : Ctx :=
  ctx ++ [BeginPath; MoveTo x1 y1; LineTo x2 y2; Stroke].

(** ** Nodes and the heap *)

Record Node := mkNode { x : R; y : R; z : R }.

Definition set_x (v : R) (n : Node) : Node := {| x := v; y := y n; z := z n |}.
Definition set_y (v : R) (n : Node) : Node := {| x := x n; y := v; z := z n |}.
Definition set_z (v : R) (n : Node) : Node := {| x := x n; y := y n; z := v |}.

Definition loc := nat.

(** The heap gives the current fields of every [Node] object. *)
Definition Heap := loc -> Node.

Definition update (h : Heap) (r : loc) (n : Node) : Heap :=
  fun r' => if Nat.eqb r' r then n else h r'.

(** [Edge]: two references, fixed at construction. *)
Record Edge := mkEdge { node1 : loc; node2 : loc }.

(** [Mesh]: the two arrays handed to the constructor. *)
Record Mesh := mkMesh { nodes : list loc; edges : list Edge }.

(** ** Drawing *)

(** [Node.draw()] on the node at [r]. *)
Definition Node_draw (h : Heap) (r : loc) (ctx : Ctx) : Ctx :=
  let ctx := ctx ++ [SetFillStyle (node colors)] in
  circle (x (h r) * PIXELS_PER_UNIT) (y (h r) * PIXELS_PER_UNIT) NODE_SIZE ctx.

(** [Edge.draw()] *)
Definition Edge_draw (h : Heap) (e : Edge) (ctx : Ctx) : Ctx :=
  let ctx := ctx ++ [SetStrokeStyle (edge colors)] in
  line (x (h (node1 e)) * PIXELS_PER_UNIT) (y (h (node1 e)) * PIXELS_PER_UNIT)
       (x (h (node2 e)) * PIXELS_PER_UNIT) (y (h (node2 e)) * PIXELS_PER_UNIT)
       ctx.

(** The two loops of [Mesh.draw()], each over an array from index 0 up. *)
Fixpoint draw_edges (h : Heap) (es : list Edge) (ctx : Ctx) : Ctx :=
  match es with
  | [] => ctx
  | e :: es' => draw_edges h es' (Edge_draw h e ctx)
  end.

Fixpoint draw_nodes (h : Heap) (ns : list loc) (ctx : Ctx) : Ctx :=
  match ns with
  | [] => ctx
  | r :: ns' => draw_nodes h ns' (Node_draw h r ctx)
  end.

(** [Mesh.draw()] *)
Definition Mesh_draw (m : Mesh) (h : Heap) (ctx : Ctx) : Ctx :=
  draw_nodes h (nodes m) (draw_edges h (edges m) ctx).

(** Which operations on the context belong to stroking a line, and which
    to filling a circle. *)
Definition is_line_op (op : CtxOp) : bool :=
  match op with
  | SetStrokeStyle _ | MoveTo _ _ | LineTo _ _ | Stroke => true
  | _ => false
  end.

Definition is_circle_op (op : CtxOp) : bool :=
  match op with
  | SetFillStyle _ | Arc _ _ _ _ _ | Fill => true
  | _ => false
  end.

Definition is_stroke (op : CtxOp) : bool :=
  match op with Stroke => true | _ => false end.

Definition is_fill (op : CtxOp) : bool :=
  match op with Fill => true | _ => false end.

(** ** Rotation *)

(** One turn of the loop of [rotateY]: both new values are computed, then
    both fields are assigned. *)
Definition rotateY_body (theta : R) (n : Node) : Node :=
  let x2 := x n * cos theta - z n * sin theta in
  let z2 := z n * cos theta + x n * sin theta in
  set_z z2 (set_x x2 n).

(** One turn of the loop of [rotateX]. *)
Definition rotateX_body (theta : R) (n : Node) : Node :=
  let z2 := z n * cos theta - y n * sin theta in
  let y2 := y n * cos theta + z n * sin theta in
  set_y y2 (set_z z2 n).

(** The loop [for (i = 0; i < this.nodes.length; i++)], mutating the object
    that [this.nodes[i]] refers to. *)
Fixpoint for_nodes (body : Node -> Node) (ns : list loc) (h : Heap) : Heap :=
  match ns with
  | [] => h
  | r :: ns' => for_nodes body ns' (update h r (body (h r)))
  end.

(** [Mesh.rotateY(theta)] *)
Definition Mesh_rotateY (theta : R) (m : Mesh) (h : Heap) : Heap :=
  for_nodes (rotateY_body theta) (nodes m) h.

(** [Mesh.rotateX(theta)] *)
Definition Mesh_rotateX (theta : R) (m : Mesh) (h : Heap) : Heap :=
  for_nodes (rotateX_body theta) (nodes m) h.

(** ** The pointer handlers

    The handlers reach the mesh and the surface only through four calls:
    [cube3D.rotateY], [cube3D.rotateX], [ctx.clearRect] and [cube3D.draw].
    They are written once over any receiver of these calls, so that they
    can be run on the page itself and on a stub that records the calls. *)

Class Stage (S : Type) := {
  call_rotateY : R -> S -> S;
  call_rotateX : R -> S -> S;
  call_clearRect : R -> R -> R -> R -> S -> S;
  call_draw : S -> S
}.

(** The two globals of the handlers. *)
Record Pointer := { MOUSE_IS_PRESSED : bool; pMousePos : R * R }.

Definition mousedown (p : Pointer) : Pointer :=
  {| MOUSE_IS_PRESSED := true; pMousePos := pMousePos p |}.

Definition mouseup (p : Pointer) : Pointer :=
  {| MOUSE_IS_PRESSED := false; pMousePos := pMousePos p |}.

Definition diffX (mousePos : R * R) (p : Pointer) : R :=
  fst mousePos - fst (pMousePos p).

Definition diffY (mousePos : R * R) (p : Pointer) : R :=
  snd mousePos - snd (pMousePos p).

Definition mousemove {S : Type} `{Stage S}
    (clientX clientY : R) (ps : Pointer * S) : Pointer * S :=
  let (p, s) := ps in
  let mousePos := (clientX, clientY) in
  let s' :=
    if MOUSE_IS_PRESSED p then
      let s1 := call_rotateY (diffX mousePos p * (PI / 180)) s in
      let s2 := call_rotateX (diffY mousePos p * (PI / 180)) s1 in
      let s3 := call_clearRect (- canvas_width / 2) (- canvas_width / 2)
                               canvas_width canvas_height s2 in
      call_draw s3
    else s in
  ({| MOUSE_IS_PRESSED := MOUSE_IS_PRESSED p; pMousePos := mousePos |}, s').

Inductive Event :=
| Down
| Up
| Move (clientX clientY : R).

Definition dispatch {S : Type} `{Stage S}
    (ev : Event) (ps : Pointer * S) : Pointer * S :=
  match ev with
  | Down => (mousedown (fst ps), snd ps)
  | Up => (mouseup (fst ps), snd ps)
  | Move cx cy => mousemove cx cy ps
  end.

Definition is_button (ev : Event) : bool :=
  match ev with Down | Up => true | Move _ _ => false end.

(** Events are handled one after the other, each to completion. *)
Fixpoint run {S : Type} `{Stage S}
    (evs : list Event) (ps : Pointer * S) : Pointer * S :=
  match evs with
  | [] => ps
  | ev :: evs' => run evs' (dispatch ev ps)
  end.

(** *** The page *)

Record Scene := { heap : Heap; ctx : Ctx; cube3D : Mesh }.

#[global] Instance page : Stage Scene := {
  call_rotateY theta s :=
    {| heap := Mesh_rotateY theta (cube3D s) (heap s);
       ctx := ctx s; cube3D := cube3D s |};
  call_rotateX theta s :=
    {| heap := Mesh_rotateX theta (cube3D s) (heap s);
       ctx := ctx s; cube3D := cube3D s |};
  call_clearRect cx cy w h s :=
    {| heap := heap s; ctx := ctx s ++ [ClearRect cx cy w h];
       cube3D := cube3D s |};
  call_draw s :=
    {| heap := heap s; ctx := Mesh_draw (cube3D s) (heap s) (ctx s);
       cube3D := cube3D s |}
}.

(** *** A recording stub *)

Inductive Call :=
| CallRotateY (theta : R)
| CallRotateX (theta : R)
| CallClearRect (cx cy w h : R)
| CallDraw.

#[global] Instance recorder : Stage (list Call) := {
  call_rotateY theta s := s ++ [CallRotateY theta];
  call_rotateX theta s := s ++ [CallRotateX theta];
  call_clearRect cx cy w h s := s ++ [CallClearRect cx cy w h];
  call_draw s := s ++ [CallDraw]
}.

(** ** The script

    The cube: eight nodes at locations 0 to 7 and twelve edges. *)

Definition cube_heap : Heap := fun r =>
  match r with
  | 0%nat => mkNode (-1) (-1) (-1)
  | 1%nat => mkNode 1 (-1) (-1)
  | 2%nat => mkNode 1 (-1) 1
  | 3%nat => mkNode (-1) (-1) 1
  | 4%nat => mkNode (-1) 1 (-1)
  | 5%nat => mkNode 1 1 (-1)
  | 6%nat => mkNode 1 1 1
  | _ => mkNode (-1) 1 1
  end.

Definition cube_nodes : list loc := [0; 1; 2; 3; 4; 5; 6; 7]%nat.

Definition cube_edges : list Edge :=
  [ mkEdge 0 1; mkEdge 0 4; mkEdge 0 3; mkEdge 1 5; mkEdge 1 2; mkEdge 3 2;
    mkEdge 3%nat 7%nat; mkEdge 2 6; mkEdge 4 5; mkEdge 5 6; mkEdge 6 7;
    mkEdge 7 4 ]%nat.

(** The state of the page once the script has run, before any event. *)
Definition loaded : Pointer * Scene :=
  let s0 := {| heap := cube_heap;
               ctx := [Translate (canvas_width / 2) (canvas_width / 2)];
               cube3D := mkMesh cube_nodes cube_edges |} in
  let s1 := call_rotateY (PI / 4) s0 in
  let s2 := call_rotateX (PI / 4) s1 in
  ({| MOUSE_IS_PRESSED := false; pMousePos := (0, 0) |}, call_draw s2).

(** ** Sequences of rotations *)

Inductive Rotation :=
| RotX (theta : R)
| RotY (theta : R).

Definition rotate (m : Mesh) (rot : Rotation) (h : Heap) : Heap :=
  match rot with
  | RotX theta => Mesh_rotateX theta m h
  | RotY theta => Mesh_rotateY theta m h
  end.

Fixpoint rotate_all (m : Mesh) (rots : list Rotation) (h : Heap) : Heap :=
  match rots with
  | [] => h
  | rot :: rots' => rotate_all m rots' (rotate m rot h)
  end.

(** Euclidean distance between two nodes. *)
Definition dist2 (p q : Node) : R :=
  (x p - x q) * (x p - x q) + (y p - y q) * (y p - y q)
  + (z p - z q) * (z p - z q).

Definition dist (p q : Node) : R := sqrt (dist2 p q).

(** The rotation formulas as the specification writes them, for one point:
    about the y axis, [x' = x cos t - z sin t] and [z' = z cos t + x sin t];
    about the x axis, [z' = z cos t - y sin t] and [y' = y cos t + z sin t]. *)
Definition rotY_point (theta : R) (n : Node) : Node :=
  mkNode (x n * cos theta - z n * sin theta) (y n)
         (z n * cos theta + x n * sin theta).

Definition rotX_point (theta : R) (n : Node) : Node :=
  mkNode (x n) (y n * cos theta + z n * sin theta)
         (z n * cos theta - y n * sin theta).

(** ** Observations on states and traces *)

(** Squared distance of a node from the origin. *)
Definition norm2 (n : Node) : R := x n * x n + y n * y n + z n * z n.

Definition is_move (ev : Event) : bool := negb (is_button ev).

Definition is_down (ev : Event) : bool :=
  match ev with Down => true | _ => false end.

(** The operations that wipe the surface or move its origin. *)
Definition is_reset (op : CtxOp) : bool :=
  match op with
  | Translate _ _ | ClearRect _ _ _ _ => true
  | _ => false
  end.

(** The [strokeStyle] in force at each [stroke()] of a trace, given the one
    in force before it; and the [fillStyle] at each [fill()]. *)
Fixpoint stroke_styles (current : string) (ops : Ctx) : list string :=
  match ops with
  | [] => []
  | SetStrokeStyle s :: ops' => stroke_styles s ops'
  | Stroke :: ops' => current :: stroke_styles current ops'
  | _ :: ops' => stroke_styles current ops'
  end.

Fixpoint fill_styles (current : string) (ops : Ctx) : list string :=
  match ops with
  | [] => []
  | SetFillStyle s :: ops' => fill_styles s ops'
  | Fill :: ops' => current :: fill_styles current ops'
  | _ :: ops' => fill_styles current ops'
  end.

(** The trace of a scene ends with one drawing of its mesh at the current
    coordinates, coming right after a reset of the surface. *)
Definition up_to_date (s : Scene) : Prop :=
  exists (pre : Ctx) (op : CtxOp),
    is_reset op = true /\
    ctx s = pre ++ [op] ++ Mesh_draw (cube3D s) (heap s) [].

(** * Properties *)

(** ** The heap and the loop over the nodes *)

Lemma update_same (h : Heap) (r : loc) (n : Node) : update h r n r = n.
Proof. unfold update. now rewrite Nat.eqb_refl. Qed.

Lemma update_other (h : Heap) (r r' : loc) (n : Node) :
  r' <> r -> update h r n r' = h r'.
Proof.
  intros Hne. unfold update.
  destruct (Nat.eqb_spec r' r) as [Heq | _]; [contradiction | reflexivity].
Qed.

(** A node object is updated once for each time the array lists it. *)
Lemma for_nodes_count (body : Node -> Node) (ns : list loc) :
  forall (h : Heap) (r : loc),
    for_nodes body ns h r = Nat.iter (count_occ Nat.eq_dec ns r) body (h r).
Proof.
  induction ns as [| r0 ns IH]; intros h r; simpl.
  - reflexivity.
  - rewrite IH. destruct (Nat.eq_dec r0 r) as [-> | Hne].
    + rewrite update_same. now rewrite Nat.iter_succ_r.
    + rewrite update_other by congruence. reflexivity.
Qed.

Lemma for_nodes_once (body : Node -> Node) (ns : list loc) (h : Heap) (r : loc) :
  count_occ Nat.eq_dec ns r = 1%nat -> for_nodes body ns h r = body (h r).
Proof. intros Hc. rewrite for_nodes_count, Hc. reflexivity. Qed.

(** In an array without repetition every member is listed once. *)
Lemma NoDup_listed_once (ns : list loc) (r : loc) :
  NoDup ns -> In r ns -> count_occ Nat.eq_dec ns r = 1%nat.
Proof.
  intros Hnd Hin. now apply (proj1 (NoDup_count_occ' Nat.eq_dec ns) Hnd).
Qed.

(** ** One point *)

Lemma rotateY_body_point (theta : R) (n : Node) :
  rotateY_body theta n = rotY_point theta n.
Proof. reflexivity. Qed.

Lemma rotateX_body_point (theta : R) (n : Node) :
  rotateX_body theta n = rotX_point theta n.
Proof. reflexivity. Qed.

Lemma node_eq (a b c a' b' c' : R) :
  a = a' -> b = b' -> c = c' -> mkNode a b c = mkNode a' b' c'.
Proof. intros -> -> ->. reflexivity. Qed.

(** Closes an equation between two nodes whose fields are ring terms. *)
Ltac node_calc :=
  unfold set_x, set_y, set_z; simpl; apply node_eq; ring.

Lemma rotY_point_plus (a b : R) (n : Node) :
  rotY_point b (rotY_point a n) = rotY_point (a + b) n.
Proof.
  unfold rotY_point; simpl. rewrite cos_plus, sin_plus.
  apply node_eq; ring.
Qed.

Lemma rotX_point_plus (a b : R) (n : Node) :
  rotX_point b (rotX_point a n) = rotX_point (a + b) n.
Proof.
  unfold rotX_point; simpl. rewrite cos_plus, sin_plus.
  apply node_eq; ring.
Qed.

Lemma rotY_point_0 (n : Node) : rotY_point 0 n = n.
Proof.
  destruct n as [a b c]. unfold rotY_point; simpl.
  rewrite cos_0, sin_0. apply node_eq; ring.
Qed.

Lemma rotX_point_0 (n : Node) : rotX_point 0 n = n.
Proof.
  destruct n as [a b c]. unfold rotX_point; simpl.
  rewrite cos_0, sin_0. apply node_eq; ring.
Qed.

(** [k] turns by [theta] are one turn by [k * theta]. *)
Lemma iter_rotY_point (k : nat) (theta : R) (n : Node) :
  Nat.iter k (rotY_point theta) n = rotY_point (INR k * theta) n.
Proof.
  induction k as [| k IH].
  - simpl. rewrite Rmult_0_l. symmetry. apply rotY_point_0.
  - rewrite S_INR. simpl. rewrite IH, rotY_point_plus. f_equal. ring.
Qed.

Lemma iter_rotX_point (k : nat) (theta : R) (n : Node) :
  Nat.iter k (rotX_point theta) n = rotX_point (INR k * theta) n.
Proof.
  induction k as [| k IH].
  - simpl. rewrite Rmult_0_l. symmetry. apply rotX_point_0.
  - rewrite S_INR. simpl. rewrite IH, rotX_point_plus. f_equal. ring.
Qed.

(** What a rotation of the mesh does to the object at [r], whatever the
    array of nodes is. *)
Lemma Mesh_rotateY_at (theta : R) (m : Mesh) (h : Heap) (r : loc) :
  Mesh_rotateY theta m h r
  = rotY_point (INR (count_occ Nat.eq_dec (nodes m) r) * theta) (h r).
Proof.
  unfold Mesh_rotateY. rewrite for_nodes_count. apply iter_rotY_point.
Qed.

Lemma Mesh_rotateX_at (theta : R) (m : Mesh) (h : Heap) (r : loc) :
  Mesh_rotateX theta m h r
  = rotX_point (INR (count_occ Nat.eq_dec (nodes m) r) * theta) (h r).
Proof.
  unfold Mesh_rotateX. rewrite for_nodes_count. apply iter_rotX_point.
Qed.

(** On a mesh that lists no node object twice, each rotation is its formula
    applied to every node of the mesh. *)
Lemma Mesh_rotateY_distinct (theta : R) (m : Mesh) (h : Heap) (r : loc) :
  NoDup (nodes m) -> In r (nodes m) ->
  Mesh_rotateY theta m h r = rotY_point theta (h r).
Proof.
  intros Hnd Hin. unfold Mesh_rotateY.
  now rewrite (for_nodes_once _ _ _ _ (NoDup_listed_once _ _ Hnd Hin)).
Qed.

Lemma Mesh_rotateX_distinct (theta : R) (m : Mesh) (h : Heap) (r : loc) :
  NoDup (nodes m) -> In r (nodes m) ->
  Mesh_rotateX theta m h r = rotX_point theta (h r).
Proof.
  intros Hnd Hin. unfold Mesh_rotateX.
  now rewrite (for_nodes_once _ _ _ _ (NoDup_listed_once _ _ Hnd Hin)).
Qed.

Lemma Mesh_rotateY_keeps_y (theta : R) (m : Mesh) (h : Heap) (r : loc) :
  y (Mesh_rotateY theta m h r) = y (h r).
Proof. rewrite Mesh_rotateY_at. reflexivity. Qed.

Lemma Mesh_rotateX_keeps_x (theta : R) (m : Mesh) (h : Heap) (r : loc) :
  x (Mesh_rotateX theta m h r) = x (h r).
Proof. rewrite Mesh_rotateX_at. reflexivity. Qed.

(** ** Rotation about the y axis *)

(** C1, as amended: [rotateY(theta)] runs its update once per entry of the
    array of nodes: a node object that the array lists [k] times gets the
    formulas [x' = x cos theta - z sin theta], [z' = z cos theta + x sin theta]
    applied [k] times in a row, each time to both coordinates at once, and a
    node that is not listed stays as it is.  So a node that the array
    lists exactly once gets [x'] and [z'] computed from the coordinates it
    had before the call; and no node of any mesh, however often it is
    listed, has its [y] changed. *)
Theorem rotateY_listed_once (m : Mesh) (theta : R) (h : Heap) (r : loc) :
  Mesh_rotateY theta m h r
  = Nat.iter (count_occ Nat.eq_dec (nodes m) r) (rotY_point theta) (h r) /\
  y (Mesh_rotateY theta m h r) = y (h r) /\
  (count_occ Nat.eq_dec (nodes m) r = 1%nat ->
   x (Mesh_rotateY theta m h r) = x (h r) * cos theta - z (h r) * sin theta /\
   z (Mesh_rotateY theta m h r) = z (h r) * cos theta + x (h r) * sin theta).
Proof.
  split; [| split].
  - exact (for_nodes_count (rotateY_body theta) (nodes m) h r).
  - apply Mesh_rotateY_keeps_y.
  - intros Hc. unfold Mesh_rotateY.
    rewrite (for_nodes_once _ _ _ _ Hc). split; reflexivity.
Qed.

Lemma rotateY_listed_once_witness :
  count_occ Nat.eq_dec (nodes (mkMesh cube_nodes cube_edges)) 2%nat = 1%nat /\
  x (Mesh_rotateY (PI / 4) (mkMesh cube_nodes cube_edges) cube_heap 2%nat)
  = x (cube_heap 2%nat) * cos (PI / 4) - z (cube_heap 2%nat) * sin (PI / 4).
Proof.
  split; [reflexivity |].
  apply (proj2 (proj2 (rotateY_listed_once (mkMesh cube_nodes cube_edges)
                         (PI / 4) cube_heap 2%nat))).
  reflexivity.
Defined.

(** C1 as stated fails on a mesh whose array lists one node object twice:
    the second turn of the loop starts from the coordinates the first turn
    has written.  The node at (1, 0, 0) under [rotateY(PI/2)] ends at
    (-1, 0, 0), where the formulas give (0, 0, 1). *)
Lemma rotateY_listed_twice_counterexample :
  let m := mkMesh [0; 0]%nat [] in
  let h : Heap := fun _ => mkNode 1 0 0 in
  In 0%nat (nodes m) /\
  Mesh_rotateY (PI / 2) m h 0%nat = mkNode (-1) 0 0 /\
  x (Mesh_rotateY (PI / 2) m h 0%nat)
    <> x (h 0%nat) * cos (PI / 2) - z (h 0%nat) * sin (PI / 2) /\
  z (Mesh_rotateY (PI / 2) m h 0%nat)
    <> z (h 0%nat) * cos (PI / 2) + x (h 0%nat) * sin (PI / 2).
Proof.
  assert (E : Mesh_rotateY (PI / 2) (mkMesh [0; 0]%nat [])
                (fun _ => mkNode 1 0 0) 0%nat = mkNode (-1) 0 0).
  { unfold Mesh_rotateY, rotateY_body; simpl. unfold update; simpl.
    rewrite cos_PI2, sin_PI2. node_calc. }
  cbv zeta. rewrite E. simpl. rewrite cos_PI2, sin_PI2.
  repeat split; [now left | lra | lra].
Qed.

(** ** Rotation about the x axis *)

(** C2, as amended: [rotateX(theta)] runs its update once per entry of the
    array of nodes: a node object that the array lists [k] times gets the
    formulas [z' = z cos theta - y sin theta], [y' = y cos theta + z sin theta]
    applied [k] times in a row, each time to both coordinates at once, and a
    node that is not listed stays as it is.  So a node that the array
    lists exactly once gets [z'] and [y'] computed from the coordinates it
    had before the call; no node of any mesh, however often it is listed,
    has its [x] changed; and a node at (0, 1, 0), listed once, is moved by
    [rotateX(PI/2)] to (0, 0, -1), over the reals. *)
Theorem rotateX_listed_once (m : Mesh) (theta : R) (h : Heap) (r : loc) :
  Mesh_rotateX theta m h r
  = Nat.iter (count_occ Nat.eq_dec (nodes m) r) (rotX_point theta) (h r) /\
  x (Mesh_rotateX theta m h r) = x (h r) /\
  (count_occ Nat.eq_dec (nodes m) r = 1%nat ->
   z (Mesh_rotateX theta m h r) = z (h r) * cos theta - y (h r) * sin theta /\
   y (Mesh_rotateX theta m h r) = y (h r) * cos theta + z (h r) * sin theta /\
   (h r = mkNode 0 1 0 -> Mesh_rotateX (PI / 2) m h r = mkNode 0 0 (-1))).
Proof.
  split; [| split].
  - exact (for_nodes_count (rotateX_body theta) (nodes m) h r).
  - apply Mesh_rotateX_keeps_x.
  - intros Hc. unfold Mesh_rotateX.
    rewrite !(for_nodes_once _ _ _ _ Hc). repeat split.
    intros ->. unfold rotateX_body; simpl.
    rewrite cos_PI2, sin_PI2. node_calc.
Qed.

Lemma rotateX_listed_once_witness :
  let m := mkMesh [0]%nat [] in
  let h : Heap := fun _ => mkNode 0 1 0 in
  count_occ Nat.eq_dec (nodes m) 0%nat = 1%nat /\
  h 0%nat = mkNode 0 1 0 /\
  Mesh_rotateX (PI / 2) m h 0%nat = mkNode 0 0 (-1).
Proof.
  cbv zeta. split; [reflexivity | split; [reflexivity |]].
  apply (proj2 (proj2 (rotateX_listed_once (mkMesh [0]%nat []) (PI / 2)
                         (fun _ => mkNode 0 1 0) 0%nat)));
    reflexivity.
Defined.

(** C2 as stated fails on its own scenario: the single point (0, 1, 0)
    goes to (0, 0, -1) under [rotateX(PI/2)], not to (0, 0, 1).  It also
    fails, as for [rotateY], when the array lists a node object twice: the
    same point then ends at (0, -1, 0), where the formulas give [y' = 0] and
    [z' = -1]. *)
Lemma rotateX_scenario_counterexample :
  let m := mkMesh [0]%nat [] in
  let m2 := mkMesh [0; 0]%nat [] in
  let h : Heap := fun _ => mkNode 0 1 0 in
  Mesh_rotateX (PI / 2) m h 0%nat = mkNode 0 0 (-1) /\
  Mesh_rotateX (PI / 2) m h 0%nat <> mkNode 0 0 1 /\
  Mesh_rotateX (PI / 2) m2 h 0%nat = mkNode 0 (-1) 0 /\
  z (Mesh_rotateX (PI / 2) m2 h 0%nat)
    <> z (h 0%nat) * cos (PI / 2) - y (h 0%nat) * sin (PI / 2).
Proof.
  assert (E : Mesh_rotateX (PI / 2) (mkMesh [0]%nat [])
                (fun _ => mkNode 0 1 0) 0%nat = mkNode 0 0 (-1)).
  { unfold Mesh_rotateX, rotateX_body; simpl. unfold update; simpl.
    rewrite cos_PI2, sin_PI2. node_calc. }
  assert (E2 : Mesh_rotateX (PI / 2) (mkMesh [0; 0]%nat [])
                 (fun _ => mkNode 0 1 0) 0%nat = mkNode 0 (-1) 0).
  { unfold Mesh_rotateX, rotateX_body; simpl. unfold update; simpl.
    rewrite cos_PI2, sin_PI2. node_calc. }
  cbv zeta. rewrite E, E2. simpl. rewrite cos_PI2, sin_PI2.
  repeat split; try lra.
  intros H. apply (f_equal z) in H. simpl in H. lra.
Qed.

(** ** Rigidity *)

Lemma rotY_point_dist2 (theta : R) (p q : Node) :
  dist2 (rotY_point theta p) (rotY_point theta q) = dist2 p q.
Proof.
  unfold dist2, rotY_point; simpl.
  pose proof (sin2_cos2 theta) as H. unfold Rsqr in H.
  set (c := cos theta) in *. set (s := sin theta) in *.
  transitivity
    ((x p - x q) * (x p - x q) + (y p - y q) * (y p - y q)
     + (z p - z q) * (z p - z q)
     + ((x p - x q) * (x p - x q) + (z p - z q) * (z p - z q))
       * (s * s + c * c - 1)).
  - ring.
  - rewrite H. ring.
Qed.

Lemma rotX_point_dist2 (theta : R) (p q : Node) :
  dist2 (rotX_point theta p) (rotX_point theta q) = dist2 p q.
Proof.
  unfold dist2, rotX_point; simpl.
  pose proof (sin2_cos2 theta) as H. unfold Rsqr in H.
  set (c := cos theta) in *. set (s := sin theta) in *.
  transitivity
    ((x p - x q) * (x p - x q) + (y p - y q) * (y p - y q)
     + (z p - z q) * (z p - z q)
     + ((y p - y q) * (y p - y q) + (z p - z q) * (z p - z q))
       * (s * s + c * c - 1)).
  - ring.
  - rewrite H. ring.
Qed.

(** One call keeps the squared distance of two nodes that the array lists
    equally often. *)
Lemma rotate_dist2 (m : Mesh) (rot : Rotation) (h : Heap) (p q : loc) :
  count_occ Nat.eq_dec (nodes m) p = count_occ Nat.eq_dec (nodes m) q ->
  dist2 (rotate m rot h p) (rotate m rot h q) = dist2 (h p) (h q).
Proof.
  intros Hc. destruct rot as [theta | theta]; simpl.
  - rewrite !Mesh_rotateX_at, Hc. apply rotX_point_dist2.
  - rewrite !Mesh_rotateY_at, Hc. apply rotY_point_dist2.
Qed.

(** C3, as amended: for every mesh, every two node objects that its array
    of nodes lists the same number of times (so any two nodes of a mesh that
    lists no node twice) and every finite sequence of [rotateX] and
    [rotateY] calls with any angles, the Euclidean distance between the two
    nodes after the calls is the distance before, over the reals. *)
Theorem rotations_keep_distance
    (m : Mesh) (rots : list Rotation) (h : Heap) (p q : loc) :
  count_occ Nat.eq_dec (nodes m) p = count_occ Nat.eq_dec (nodes m) q ->
  dist (rotate_all m rots h p) (rotate_all m rots h q) = dist (h p) (h q).
Proof.
  intros Hc. unfold dist. f_equal.
  revert h. induction rots as [| rot rots IH]; intros h; simpl.
  - reflexivity.
  - rewrite IH. now apply rotate_dist2.
Qed.

Lemma rotations_keep_distance_witness :
  let m := mkMesh cube_nodes cube_edges in
  let rots := [RotY (PI / 4); RotX (PI / 4)] in
  count_occ Nat.eq_dec (nodes m) 0%nat = count_occ Nat.eq_dec (nodes m) 6%nat /\
  dist (rotate_all m rots cube_heap 0%nat) (rotate_all m rots cube_heap 6%nat)
  = dist (cube_heap 0%nat) (cube_heap 6%nat).
Proof.
  cbv zeta. split; [reflexivity |].
  apply (rotations_keep_distance (mkMesh cube_nodes cube_edges)
           [RotY (PI / 4); RotX (PI / 4)] cube_heap 0%nat 6%nat).
  reflexivity.
Defined.

(** C3 as stated fails on a mesh whose array lists one of the two nodes
    twice: with nodes [[0; 0; 1]], both at (1, 0, 0), one [rotateY(PI/2)]
    turns node 0 by a half turn and node 1 by a quarter turn, and their
    distance goes from 0 to the square root of 2. *)
Lemma rotations_distance_counterexample :
  let m := mkMesh [0; 0; 1]%nat [] in
  let h : Heap := fun _ => mkNode 1 0 0 in
  In 0%nat (nodes m) /\ In 1%nat (nodes m) /\
  dist (h 0%nat) (h 1%nat) = 0 /\
  dist (rotate_all m [RotY (PI / 2)] h 0%nat)
       (rotate_all m [RotY (PI / 2)] h 1%nat) = sqrt 2 /\
  dist (rotate_all m [RotY (PI / 2)] h 0%nat)
       (rotate_all m [RotY (PI / 2)] h 1%nat) <> dist (h 0%nat) (h 1%nat).
Proof.
  cbv zeta.
  assert (E0 : rotate_all (mkMesh [0; 0; 1]%nat []) [RotY (PI / 2)]
                 (fun _ => mkNode 1 0 0) 0%nat = mkNode (-1) 0 0).
  { unfold rotate_all, rotate, Mesh_rotateY, rotateY_body; simpl.
    unfold update; simpl. rewrite cos_PI2, sin_PI2. node_calc. }
  assert (E1 : rotate_all (mkMesh [0; 0; 1]%nat []) [RotY (PI / 2)]
                 (fun _ => mkNode 1 0 0) 1%nat = mkNode 0 0 1).
  { unfold rotate_all, rotate, Mesh_rotateY, rotateY_body; simpl.
    unfold update; simpl. rewrite cos_PI2, sin_PI2. node_calc. }
  rewrite E0, E1.
  assert (D0 : dist (mkNode 1 0 0) (mkNode 1 0 0) = 0).
  { unfold dist, dist2; simpl.
    replace ((1 - 1) * (1 - 1) + (0 - 0) * (0 - 0) + (0 - 0) * (0 - 0))
      with 0 by ring.
    apply sqrt_0. }
  assert (D1 : dist (mkNode (-1) 0 0) (mkNode 0 0 1) = sqrt 2).
  { unfold dist, dist2; simpl. f_equal. ring. }
  rewrite D0, D1.
  repeat split; simpl; auto.
  pose proof (sqrt_lt_R0 2). lra.
Qed.

(** ** Order of the two rotations *)

(** C7: there are angles, a mesh and a state of its nodes on which
    [rotateY(a)] then [rotateX(b)] and [rotateX(b)] then [rotateY(a)] leave a
    node at different coordinates: the single point (1, 0, 0) with two
    quarter turns ends at (0, 1, 0) one way and at (0, 0, 1) the other. *)
Theorem rotateY_rotateX_do_not_commute :
  exists (a b : R) (m : Mesh) (h : Heap) (r : loc),
    In r (nodes m) /\
    Mesh_rotateX b m (Mesh_rotateY a m h) r = mkNode 0 1 0 /\
    Mesh_rotateY a m (Mesh_rotateX b m h) r = mkNode 0 0 1 /\
    Mesh_rotateX b m (Mesh_rotateY a m h) r
    <> Mesh_rotateY a m (Mesh_rotateX b m h) r.
Proof.
  exists (PI / 2), (PI / 2), (mkMesh [0%nat] []), (fun _ => mkNode 1 0 0), 0%nat.
  assert (E1 : Mesh_rotateX (PI / 2) (mkMesh [0%nat] [])
                 (Mesh_rotateY (PI / 2) (mkMesh [0%nat] [])
                    (fun _ => mkNode 1 0 0)) 0%nat = mkNode 0 1 0).
  { unfold Mesh_rotateX, Mesh_rotateY, rotateX_body, rotateY_body; simpl.
    unfold update; simpl. rewrite cos_PI2, sin_PI2. node_calc. }
  assert (E2 : Mesh_rotateY (PI / 2) (mkMesh [0%nat] [])
                 (Mesh_rotateX (PI / 2) (mkMesh [0%nat] [])
                    (fun _ => mkNode 1 0 0)) 0%nat = mkNode 0 0 1).
  { unfold Mesh_rotateX, Mesh_rotateY, rotateX_body, rotateY_body; simpl.
    unfold update; simpl. rewrite cos_PI2, sin_PI2. node_calc. }
  rewrite E1, E2. repeat split; [now left |].
  intros H. apply (f_equal y) in H. simpl in H. lra.
Qed.

(** ** Adding angles *)

(** C10: two calls of [rotateY], by [a] and then by [b], leave every node
    of every mesh where one call by [a + b] leaves it, over the reals; and
    the same for [rotateX]. *)
Theorem rotations_add (m : Mesh) (a b : R) (h : Heap) (r : loc) :
  Mesh_rotateY b m (Mesh_rotateY a m h) r = Mesh_rotateY (a + b) m h r /\
  Mesh_rotateX b m (Mesh_rotateX a m h) r = Mesh_rotateX (a + b) m h r.
Proof.
  split.
  - rewrite !Mesh_rotateY_at, rotY_point_plus. f_equal. ring.
  - rewrite !Mesh_rotateX_at, rotX_point_plus. f_equal. ring.
Qed.

(** [n] calls of [rotateY(theta)] in a row. *)
Lemma iter_Mesh_rotateY_at (n : nat) (theta : R) (m : Mesh) (h : Heap) (r : loc) :
  Nat.iter n (Mesh_rotateY theta m) h r
  = rotY_point (INR (count_occ Nat.eq_dec (nodes m) r) * (INR n * theta)) (h r).
Proof.
  induction n as [| n IH].
  - simpl. rewrite Rmult_0_l, Rmult_0_r. symmetry. apply rotY_point_0.
  - rewrite S_INR. simpl. rewrite Mesh_rotateY_at, IH, rotY_point_plus.
    f_equal. ring.
Qed.

Lemma rotY_point_turns (k : nat) (n : Node) :
  rotY_point (INR k * (2 * PI)) n = n.
Proof.
  rewrite <- (rotY_point_0 n) at 2. unfold rotY_point.
  replace (INR k * (2 * PI)) with (0 + 2 * INR k * PI) by ring.
  now rewrite cos_period, sin_period.
Qed.

(** C8: when [N] is positive and [N * theta = 2 PI], [N] calls of
    [rotateY(theta)] in a row bring every node of every mesh back to the
    coordinates it had, over the reals. *)
Theorem rotateY_full_turn (m : Mesh) (N : nat) (theta : R) (h : Heap) (r : loc) :
  (0 < N)%nat ->
  INR N * theta = 2 * PI ->
  Nat.iter N (Mesh_rotateY theta m) h r = h r.
Proof.
  intros _ Hturn.
  rewrite iter_Mesh_rotateY_at, Hturn. apply rotY_point_turns.
Qed.

Lemma rotateY_full_turn_witness :
  (0 < 4)%nat /\ INR 4 * (PI / 2) = 2 * PI /\
  Nat.iter 4 (Mesh_rotateY (PI / 2) (mkMesh cube_nodes cube_edges))
    cube_heap 3%nat = cube_heap 3%nat.
Proof.
  assert (H4 : INR 4 * (PI / 2) = 2 * PI) by (simpl; lra).
  split; [lia | split; [exact H4 |]].
  apply (rotateY_full_turn (mkMesh cube_nodes cube_edges) 4 (PI / 2)
           cube_heap 3%nat); [lia | exact H4].
Defined.

(** ** Drawing *)

Lemma Node_draw_app (h : Heap) (r : loc) (ctx : Ctx) :
  Node_draw h r ctx = ctx ++ Node_draw h r [].
Proof. unfold Node_draw, circle. simpl. now rewrite <- app_assoc. Qed.

Lemma Edge_draw_app (h : Heap) (e : Edge) (ctx : Ctx) :
  Edge_draw h e ctx = ctx ++ Edge_draw h e [].
Proof. unfold Edge_draw, line. simpl. now rewrite <- app_assoc. Qed.

Lemma draw_edges_app (h : Heap) (es : list Edge) :
  forall ctx, draw_edges h es ctx = ctx ++ flat_map (fun e => Edge_draw h e []) es.
Proof.
  induction es as [| e es IH]; intros ctx; simpl.
  - now rewrite app_nil_r.
  - rewrite IH, Edge_draw_app. now rewrite <- app_assoc.
Qed.

Lemma draw_nodes_app (h : Heap) (ns : list loc) :
  forall ctx, draw_nodes h ns ctx = ctx ++ flat_map (fun r => Node_draw h r []) ns.
Proof.
  induction ns as [| r ns IH]; intros ctx; simpl.
  - now rewrite app_nil_r.
  - rewrite IH, Node_draw_app. now rewrite <- app_assoc.
Qed.

(** C4: the circle of a node is centred at [(x * PIXELS_PER_UNIT,
    y * PIXELS_PER_UNIT)] of the node's current coordinates, and the line of
    an edge runs between the same products for its two end nodes; [z] is not
    read, so nodes with equal [x] and [y] are drawn alike, and so are edges
    whose end nodes have equal [x] and [y]. *)
Theorem projection_discards_depth
    (h h' : Heap) (p q p' q' : loc) (ctx : Ctx) :
  x (h' p') = x (h p) -> y (h' p') = y (h p) ->
  x (h' q') = x (h q) -> y (h' q') = y (h q) ->
  Node_draw h p ctx
  = ctx ++ [ SetFillStyle "green"; BeginPath;
             Arc (x (h p) * PIXELS_PER_UNIT) (y (h p) * PIXELS_PER_UNIT)
                 NODE_SIZE 0 (2 * PI);
             Fill ] /\
  Edge_draw h (mkEdge p q) ctx
  = ctx ++ [ SetStrokeStyle "blue"; BeginPath;
             MoveTo (x (h p) * PIXELS_PER_UNIT) (y (h p) * PIXELS_PER_UNIT);
             LineTo (x (h q) * PIXELS_PER_UNIT) (y (h q) * PIXELS_PER_UNIT);
             Stroke ] /\
  Node_draw h' p' ctx = Node_draw h p ctx /\
  Edge_draw h' (mkEdge p' q') ctx = Edge_draw h (mkEdge p q) ctx.
Proof.
  intros Hxp Hyp Hxq Hyq.
  unfold Node_draw, Edge_draw, circle, line; simpl.
  rewrite Hxp, Hyp, Hxq, Hyq, <- !app_assoc. simpl. auto.
Qed.

Lemma projection_discards_depth_witness :
  x (cube_heap 3%nat) = x (cube_heap 0%nat) /\
  z (cube_heap 3%nat) <> z (cube_heap 0%nat) /\
  Node_draw cube_heap 3%nat [] = Node_draw cube_heap 0%nat [] /\
  Edge_draw cube_heap (mkEdge 3%nat 2%nat) []
  = Edge_draw cube_heap (mkEdge 0%nat 1%nat) [].
Proof.
  split; [reflexivity |]. split; [simpl; lra |].
  apply (projection_discards_depth cube_heap cube_heap 0%nat 1%nat 3%nat 2%nat []);
    reflexivity.
Defined.

Lemma edge_ops_no_circle (h : Heap) (es : list Edge) :
  forallb (fun op => negb (is_circle_op op))
          (flat_map (fun e => Edge_draw h e []) es) = true.
Proof. induction es as [| e es IH]; simpl; auto. Qed.

Lemma node_ops_no_line (h : Heap) (ns : list loc) :
  forallb (fun op => negb (is_line_op op))
          (flat_map (fun r => Node_draw h r []) ns) = true.
Proof. induction ns as [| r ns IH]; simpl; auto. Qed.

Lemma edge_ops_strokes (h : Heap) (es : list Edge) :
  List.length (filter is_stroke (flat_map (fun e => Edge_draw h e []) es))
  = List.length es.
Proof. induction es as [| e es IH]; simpl; auto. Qed.

Lemma node_ops_fills (h : Heap) (ns : list loc) :
  List.length (filter is_fill (flat_map (fun r => Node_draw h r []) ns))
  = List.length ns.
Proof. induction ns as [| r ns IH]; simpl; auto. Qed.

Lemma forallb_nth_error {A : Type} (f : A -> bool) (l : list A) (i : nat) (a : A) :
  forallb f l = true -> nth_error l i = Some a -> f a = true.
Proof.
  intros Hall Hnth. rewrite forallb_forall in Hall.
  apply Hall. eapply nth_error_In; eauto.
Qed.

(** In a trace made of lines and then circles, a stroke comes before every
    fill. *)
Lemma stroke_before_fill (lines circles : Ctx) (i j : nat) :
  forallb (fun op => negb (is_circle_op op)) lines = true ->
  forallb (fun op => negb (is_line_op op)) circles = true ->
  option_map is_stroke (nth_error (lines ++ circles) i) = Some true ->
  option_map is_fill (nth_error (lines ++ circles) j) = Some true ->
  (i < j)%nat.
Proof.
  intros HL HC Hi Hj.
  assert (Hi' : (i < List.length lines)%nat).
  { destruct (Nat.lt_ge_cases i (List.length lines)) as [Hlt | Hge]; [exact Hlt |].
    rewrite nth_error_app2 in Hi by exact Hge.
    destruct (nth_error circles (i - List.length lines)) as [op |] eqn:E;
      [| discriminate].
    pose proof (forallb_nth_error _ _ _ _ HC E) as Hop.
    destruct op; simpl in *; discriminate. }
  assert (Hj' : (List.length lines <= j)%nat).
  { destruct (Nat.lt_ge_cases j (List.length lines)) as [Hlt | Hge]; [| exact Hge].
    rewrite nth_error_app1 in Hj by exact Hlt.
    destruct (nth_error lines j) as [op |] eqn:E; [| discriminate].
    pose proof (forallb_nth_error _ _ _ _ HL E) as Hop.
    destruct op; simpl in *; discriminate. }
  lia.
Qed.

(** C5: [Mesh.draw()] adds to the context first the line of every edge, in
    the order of the array of edges, then the circle of every node, in the
    order of the array of nodes: one stroke per edge and one fill per node,
    no part of a circle among the lines and no part of a line among the
    circles, so that every stroke comes strictly before every fill. *)
Theorem Mesh_draw_order (m : Mesh) (h : Heap) (ctx : Ctx) :
  let lines := flat_map (fun e => Edge_draw h e []) (edges m) in
  let circles := flat_map (fun r => Node_draw h r []) (nodes m) in
  Mesh_draw m h ctx = ctx ++ lines ++ circles /\
  List.length (filter is_stroke lines) = List.length (edges m) /\
  List.length (filter is_fill circles) = List.length (nodes m) /\
  forallb (fun op => negb (is_circle_op op)) lines = true /\
  forallb (fun op => negb (is_line_op op)) circles = true /\
  (forall i j : nat,
      option_map is_stroke (nth_error (lines ++ circles) i) = Some true ->
      option_map is_fill (nth_error (lines ++ circles) j) = Some true ->
      (i < j)%nat).
Proof.
  cbv zeta. unfold Mesh_draw.
  rewrite draw_nodes_app, draw_edges_app, <- app_assoc.
  repeat split;
    auto using edge_ops_no_circle, node_ops_no_line,
               edge_ops_strokes, node_ops_fills.
  intros i j. apply stroke_before_fill;
    auto using edge_ops_no_circle, node_ops_no_line.
Qed.

(** One edge and its two end nodes: the stroke is the fifth operation, the
    two fills are the ninth and the thirteenth. *)
Lemma Mesh_draw_order_witness :
  let m := mkMesh [0; 1]%nat [mkEdge 0%nat 1%nat] in
  let ops := flat_map (fun e => Edge_draw cube_heap e []) (edges m)
             ++ flat_map (fun r => Node_draw cube_heap r []) (nodes m) in
  option_map is_stroke (nth_error ops 4) = Some true /\
  option_map is_fill (nth_error ops 8) = Some true /\
  option_map is_fill (nth_error ops 12) = Some true /\
  List.length ops = 13%nat /\
  (4 < 8)%nat.
Proof.
  cbv zeta. repeat split; try reflexivity.
  apply (proj2 (proj2 (proj2 (proj2 (proj2
    (Mesh_draw_order (mkMesh [0; 1]%nat [mkEdge 0%nat 1%nat]) cube_heap [])))))
    4%nat 8%nat); reflexivity.
Defined.

(** ** The pointer *)

Lemma clear_args :
  - canvas_width / 2 = -300 /\ canvas_width = 600 /\ canvas_height = 600.
Proof. unfold canvas_width, canvas_height. repeat split; lra. Qed.

(** C6: a move event that arrives while the button is pressed, at
    [(cx, cy)] with [dx = cx - previous x] and [dy = cy - previous y], calls
    [rotateY(dx * PI/180)], then [rotateX(dy * PI/180)], then [clearRect]
    over the whole surface, then [draw], each once and in that order, as the
    recording stub shows; on the page the nodes end where these two
    rotations take them, and the context gets the clearing and then the
    drawing of the rotated mesh.  A move from (100, 100) to (110, 105) calls
    [rotateY(10 * PI/180)] and then [rotateX(5 * PI/180)]. *)
Theorem pressed_move_rotates_and_redraws
    (cx cy : R) (p : Pointer) (s : Scene) (calls : list Call) :
  MOUSE_IS_PRESSED p = true ->
  let dx := cx - fst (pMousePos p) in
  let dy := cy - snd (pMousePos p) in
  let h' := Mesh_rotateX (dy * (PI / 180)) (cube3D s)
              (Mesh_rotateY (dx * (PI / 180)) (cube3D s) (heap s)) in
  snd (mousemove cx cy (p, calls))
  = calls ++ [ CallRotateY (dx * (PI / 180)); CallRotateX (dy * (PI / 180));
               CallClearRect (-300) (-300) 600 600; CallDraw ] /\
  snd (mousemove cx cy (p, s))
  = {| heap := h';
       ctx := Mesh_draw (cube3D s) h' (ctx s ++ [ClearRect (-300) (-300) 600 600]);
       cube3D := cube3D s |} /\
  fst (mousemove cx cy (p, s))
  = {| MOUSE_IS_PRESSED := true; pMousePos := (cx, cy) |} /\
  (pMousePos p = (100, 100) -> cx = 110 -> cy = 105 ->
   snd (mousemove cx cy (p, calls))
   = calls ++ [ CallRotateY (10 * (PI / 180)); CallRotateX (5 * (PI / 180));
                CallClearRect (-300) (-300) 600 600; CallDraw ]).
Proof.
  intros Hp. cbv zeta.
  destruct clear_args as (E1 & E2 & E3).
  assert (Hrec : snd (mousemove cx cy (p, calls))
    = calls ++ [ CallRotateY ((cx - fst (pMousePos p)) * (PI / 180));
                 CallRotateX ((cy - snd (pMousePos p)) * (PI / 180));
                 CallClearRect (-300) (-300) 600 600; CallDraw ]).
  { unfold mousemove, diffX, diffY; rewrite Hp; simpl.
    rewrite E1, E2, E3, <- !app_assoc. reflexivity. }
  repeat split.
  - exact Hrec.
  - unfold mousemove, diffX, diffY; rewrite Hp; simpl.
    rewrite E1, E2, E3. reflexivity.
  - unfold mousemove; rewrite Hp; reflexivity.
  - intros Hprev -> ->. rewrite Hrec, Hprev; simpl.
    replace (110 - 100) with 10 by lra. replace (105 - 100) with 5 by lra.
    reflexivity.
Qed.

Lemma pressed_move_rotates_and_redraws_witness :
  let p := {| MOUSE_IS_PRESSED := true; pMousePos := (100, 100) |} in
  MOUSE_IS_PRESSED p = true /\
  snd (mousemove 110 105 (p, @nil Call))
  = [ CallRotateY (10 * (PI / 180)); CallRotateX (5 * (PI / 180));
      CallClearRect (-300) (-300) 600 600; CallDraw ].
Proof.
  cbv zeta. split; [reflexivity |].
  apply (pressed_move_rotates_and_redraws 110 105
           {| MOUSE_IS_PRESSED := true; pMousePos := (100, 100) |}
           (snd loaded) []); reflexivity.
Defined.

Lemma run_buttons_keep_position {S : Type} `{Stage S} (evs : list Event) :
  forall ps : Pointer * S,
    forallb is_button evs = true ->
    pMousePos (fst (run evs ps)) = pMousePos (fst ps).
Proof.
  induction evs as [| ev evs IH]; intros ps Hb; simpl in *.
  - reflexivity.
  - apply andb_prop in Hb as [Hev Hevs].
    rewrite (IH _ Hevs). destruct ev; simpl in *; try reflexivity.
    discriminate.
Qed.

Lemma mousemove_position {S : Type} `{Stage S} (cx cy : R) (ps : Pointer * S) :
  pMousePos (fst (mousemove cx cy ps)) = (cx, cy).
Proof. destruct ps as [p s]. reflexivity. Qed.

(** C9, as amended: every move event, with the button pressed or not,
    leaves the stored previous position equal to the position of the event;
    button events do not touch it; so the first move of a drag has as delta
    its position minus the position of the last move event before it, which
    is zero only if the pointer is reported where it was. *)
Theorem move_records_position {S : Type} `{Stage S}
    (cx cy : R) (ps : Pointer * S) (evs : list Event) (qx qy : R) :
  forallb is_button evs = true ->
  pMousePos (fst (mousemove cx cy ps)) = (cx, cy) /\
  pMousePos (fst (run (Move cx cy :: evs) ps)) = (cx, cy) /\
  diffX (qx, qy) (fst (run (Move cx cy :: evs) ps)) = qx - cx /\
  diffY (qx, qy) (fst (run (Move cx cy :: evs) ps)) = qy - cy.
Proof.
  intros Hb.
  assert (Hpos : pMousePos (fst (run (Move cx cy :: evs) ps)) = (cx, cy)).
  { simpl. rewrite (run_buttons_keep_position evs _ Hb).
    apply mousemove_position. }
  unfold diffX, diffY. rewrite Hpos, mousemove_position. simpl. auto.
Qed.

Lemma move_records_position_witness :
  forallb is_button [Up; Down] = true /\
  pMousePos (fst (run [Move 100 100; Up; Down] loaded)) = (100, 100) /\
  diffX (110, 105) (fst (run [Move 100 100; Up; Down] loaded)) = 110 - 100.
Proof.
  split; [reflexivity |].
  pose proof (move_records_position 100 100 loaded [Up; Down] 110 105
                eq_refl) as (_ & Hpos & Hdx & _).
  split; [exact Hpos | exact Hdx].
Defined.

(** C9 as stated fails: the first move with the button pressed does not
    have a zero delta.  After a move to (100, 100) and a press, the move to
    (110, 105) is the first one of the drag; its delta is (10, 5) and it
    calls [rotateY(10 * PI/180)]. *)
Lemma first_pressed_move_counterexample :
  let ps := run [Move 100 100; Down] loaded in
  MOUSE_IS_PRESSED (fst ps) = true /\
  diffX (110, 105) (fst ps) = 10 /\
  diffY (110, 105) (fst ps) = 5 /\
  (diffX (110, 105) (fst ps), diffY (110, 105) (fst ps)) <> (0, 0) /\
  snd (mousemove 110 105 (fst ps, @nil Call))
  = [ CallRotateY (10 * (PI / 180)); CallRotateX (5 * (PI / 180));
      CallClearRect (-300) (-300) 600 600; CallDraw ].
Proof.
  cbv zeta.
  assert (Hp : fst (run [Move 100 100; Down] loaded)
               = {| MOUSE_IS_PRESSED := true; pMousePos := (100, 100) |})
    by reflexivity.
  rewrite Hp. unfold diffX, diffY; simpl.
  destruct clear_args as (E1 & E2 & E3). rewrite E1, E2, E3.
  replace (110 - 100) with 10 by lra. replace (105 - 100) with 5 by lra.
  repeat split; try reflexivity.
  - intros H. apply (f_equal fst) in H. simpl in H. lra.
  - unfold diffX, diffY; simpl.
    replace (110 - 100) with 10 by lra. replace (105 - 100) with 5 by lra.
    reflexivity.
Qed.

(** * Further properties of the code

    As everywhere in this file, coordinates and angles are real numbers:
    equalities between coordinates after rotations are exact over the reals
    and hold in double precision only up to rounding. *)

(** ** Rotations of the mesh *)

Lemma rotate_at (m : Mesh) (rot : Rotation) (h : Heap) (r : loc) :
  rotate m rot h r
  = match rot with
    | RotX theta =>
        rotX_point (INR (count_occ Nat.eq_dec (nodes m) r) * theta) (h r)
    | RotY theta =>
        rotY_point (INR (count_occ Nat.eq_dec (nodes m) r) * theta) (h r)
    end.
Proof.
  destruct rot; simpl; [apply Mesh_rotateX_at | apply Mesh_rotateY_at].
Qed.

Lemma rotate_all_app (m : Mesh) (rots1 rots2 : list Rotation) (h : Heap) :
  rotate_all m (rots1 ++ rots2) h = rotate_all m rots2 (rotate_all m rots1 h).
Proof.
  revert h. induction rots1 as [| rot rots1 IH]; intros h; simpl; auto.
Qed.

(** A rotation by the angle 0 changes no coordinate of any node, of any
    mesh. *)
Theorem rotation_by_zero (m : Mesh) (h : Heap) (r : loc) :
  Mesh_rotateY 0 m h r = h r /\ Mesh_rotateX 0 m h r = h r.
Proof.
  rewrite Mesh_rotateY_at, Mesh_rotateX_at, Rmult_0_r.
  split; [apply rotY_point_0 | apply rotX_point_0].
Qed.

(** Over the reals, a rotation followed by the rotation by the opposite
    angle about the same axis puts every node of every mesh back where it
    was. *)
Theorem rotation_undone_by_opposite (m : Mesh) (theta : R) (h : Heap) (r : loc) :
  Mesh_rotateY (- theta) m (Mesh_rotateY theta m h) r = h r /\
  Mesh_rotateX (- theta) m (Mesh_rotateX theta m h) r = h r.
Proof.
  split.
  - rewrite !Mesh_rotateY_at, rotY_point_plus.
    rewrite <- (rotY_point_0 (h r)) at 2. f_equal. ring.
  - rewrite !Mesh_rotateX_at, rotX_point_plus.
    rewrite <- (rotX_point_0 (h r)) at 2. f_equal. ring.
Qed.

(** Over the reals, two rotations about the same axis can be swapped. *)
Theorem rotations_about_one_axis_commute
    (m : Mesh) (a b : R) (h : Heap) (r : loc) :
  Mesh_rotateY b m (Mesh_rotateY a m h) r
  = Mesh_rotateY a m (Mesh_rotateY b m h) r /\
  Mesh_rotateX b m (Mesh_rotateX a m h) r
  = Mesh_rotateX a m (Mesh_rotateX b m h) r.
Proof.
  split.
  - rewrite !Mesh_rotateY_at, !rotY_point_plus. f_equal. ring.
  - rewrite !Mesh_rotateX_at, !rotX_point_plus. f_equal. ring.
Qed.

Lemma rotate_all_other
    (m : Mesh) (rots : list Rotation) (h : Heap) (r : loc) :
  ~ In r (nodes m) -> rotate_all m rots h r = h r.
Proof.
  intros Hnot.
  assert (Hc : count_occ Nat.eq_dec (nodes m) r = 0%nat)
    by now apply count_occ_not_In.
  revert h. induction rots as [| rot rots IH]; intros h; simpl.
  - reflexivity.
  - rewrite IH, rotate_at, Hc.
    destruct rot; simpl; rewrite Rmult_0_l;
      [apply rotX_point_0 | apply rotY_point_0].
Qed.

(** A node object that the array of the mesh does not list is left alone by
    every sequence of rotations of that mesh. *)
Theorem rotations_leave_other_nodes
    (m : Mesh) (rots : list Rotation) (h : Heap) (r : loc) :
  ~ In r (nodes m) -> rotate_all m rots h r = h r.
Proof. exact (rotate_all_other m rots h r). Qed.

Lemma rotations_leave_other_nodes_witness :
  ~ In 9%nat (nodes (mkMesh cube_nodes cube_edges)) /\
  rotate_all (mkMesh cube_nodes cube_edges) [RotY (PI / 4); RotX (PI / 4)]
    cube_heap 9%nat = cube_heap 9%nat.
Proof.
  assert (Hnot : ~ In 9%nat (nodes (mkMesh cube_nodes cube_edges))).
  { simpl. intros H. repeat (destruct H as [H | H]; [discriminate |]).
    exact H. }
  split; [exact Hnot |].
  apply (rotations_leave_other_nodes (mkMesh cube_nodes cube_edges)
           [RotY (PI / 4); RotX (PI / 4)] cube_heap 9%nat Hnot).
Defined.

Lemma rotY_point_norm2 (theta : R) (n : Node) :
  norm2 (rotY_point theta n) = norm2 n.
Proof.
  unfold norm2, rotY_point; simpl.
  pose proof (sin2_cos2 theta) as H. unfold Rsqr in H.
  set (c := cos theta) in *. set (s := sin theta) in *.
  transitivity (x n * x n + y n * y n + z n * z n
                + (x n * x n + z n * z n) * (s * s + c * c - 1)).
  - ring.
  - rewrite H. ring.
Qed.

Lemma rotX_point_norm2 (theta : R) (n : Node) :
  norm2 (rotX_point theta n) = norm2 n.
Proof.
  unfold norm2, rotX_point; simpl.
  pose proof (sin2_cos2 theta) as H. unfold Rsqr in H.
  set (c := cos theta) in *. set (s := sin theta) in *.
  transitivity (x n * x n + y n * y n + z n * z n
                + (y n * y n + z n * z n) * (s * s + c * c - 1)).
  - ring.
  - rewrite H. ring.
Qed.

Lemma rotate_all_norm2
    (m : Mesh) (rots : list Rotation) (h : Heap) (r : loc) :
  norm2 (rotate_all m rots h r) = norm2 (h r).
Proof.
  revert h. induction rots as [| rot rots IH]; intros h; simpl.
  - reflexivity.
  - rewrite IH, rotate_at.
    destruct rot; [apply rotX_point_norm2 | apply rotY_point_norm2].
Qed.

(** Over the reals, every sequence of rotations keeps every node at its
    distance from the origin, also a node that the array lists several
    times. *)
Theorem rotations_keep_norm
    (m : Mesh) (rots : list Rotation) (h : Heap) (r : loc) :
  norm2 (rotate_all m rots h r) = norm2 (h r).
Proof. exact (rotate_all_norm2 m rots h r). Qed.

Lemma rotate_all_dist2 (m : Mesh) (rots : list Rotation) (h : Heap) (p q : loc) :
  count_occ Nat.eq_dec (nodes m) p = count_occ Nat.eq_dec (nodes m) q ->
  dist2 (rotate_all m rots h p) (rotate_all m rots h q) = dist2 (h p) (h q).
Proof.
  intros Hc. revert h. induction rots as [| rot rots IH]; intros h; simpl.
  - reflexivity.
  - rewrite IH. now apply rotate_dist2.
Qed.

(** ** The drawing of the mesh *)

Lemma Mesh_draw_app (m : Mesh) (h : Heap) (ctx : Ctx) :
  Mesh_draw m h ctx = ctx ++ Mesh_draw m h [].
Proof.
  unfold Mesh_draw.
  rewrite !draw_nodes_app, !draw_edges_app, <- app_assoc. reflexivity.
Qed.

Lemma Mesh_draw_nil (m : Mesh) (h : Heap) :
  Mesh_draw m h []
  = flat_map (fun e => Edge_draw h e []) (edges m)
    ++ flat_map (fun r => Node_draw h r []) (nodes m).
Proof. unfold Mesh_draw. now rewrite draw_nodes_app, draw_edges_app. Qed.

Lemma stroke_styles_nodes (h : Heap) (ns : list loc) (s : string) :
  stroke_styles s (flat_map (fun r => Node_draw h r []) ns) = [].
Proof. induction ns as [| r ns IH]; simpl; auto. Qed.

Lemma stroke_styles_drawing (h : Heap) (es : list Edge) (ns : list loc) :
  forall s,
    stroke_styles s (flat_map (fun e => Edge_draw h e []) es
                     ++ flat_map (fun r => Node_draw h r []) ns)
    = repeat (edge colors) (List.length es).
Proof.
  induction es as [| e es IH]; intros s; simpl.
  - apply stroke_styles_nodes.
  - now rewrite IH.
Qed.

Lemma fill_styles_nodes (h : Heap) (ns : list loc) :
  forall f,
    fill_styles f (flat_map (fun r => Node_draw h r []) ns)
    = repeat (node colors) (List.length ns).
Proof.
  induction ns as [| r ns IH]; intros f; simpl.
  - reflexivity.
  - now rewrite IH.
Qed.

Lemma fill_styles_drawing (h : Heap) (es : list Edge) (ns : list loc) :
  forall f,
    fill_styles f (flat_map (fun e => Edge_draw h e []) es
                   ++ flat_map (fun r => Node_draw h r []) ns)
    = repeat (node colors) (List.length ns).
Proof.
  induction es as [| e es IH]; intros f; simpl.
  - apply fill_styles_nodes.
  - apply IH.
Qed.

Lemma stroke_styles_app (ops : Ctx) (out : list string) :
  (forall s, stroke_styles s ops = out) ->
  forall before s, stroke_styles s (before ++ ops) = stroke_styles s before ++ out.
Proof.
  intros Hops before. induction before as [| op before IH]; intros s; simpl.
  - apply Hops.
  - destruct op; simpl; rewrite ?IH; reflexivity.
Qed.

Lemma fill_styles_app (ops : Ctx) (out : list string) :
  (forall f, fill_styles f ops = out) ->
  forall before f, fill_styles f (before ++ ops) = fill_styles f before ++ out.
Proof.
  intros Hops before. induction before as [| op before IH]; intros f; simpl.
  - apply Hops.
  - destruct op; simpl; rewrite ?IH; reflexivity.
Qed.

(** Whatever was done to the context before and whatever styles were left
    in force, [Mesh.draw()] strokes every edge in the edge colour and fills
    every node in the node colour: the strokes it adds are all "blue", one
    per edge, and the fills it adds are all "green", one per node. *)
Theorem Mesh_draw_styles (m : Mesh) (h : Heap) (before : Ctx) (s f : string) :
  stroke_styles s (Mesh_draw m h before)
  = stroke_styles s before ++ repeat "blue"%string (List.length (edges m)) /\
  fill_styles f (Mesh_draw m h before)
  = fill_styles f before ++ repeat "green"%string (List.length (nodes m)).
Proof.
  rewrite Mesh_draw_app, Mesh_draw_nil. split.
  - apply stroke_styles_app. intros s'. apply stroke_styles_drawing.
  - apply fill_styles_app. intros f'. apply fill_styles_drawing.
Qed.

Lemma Mesh_draw_no_reset (m : Mesh) (h : Heap) :
  forallb (fun op => negb (is_reset op)) (Mesh_draw m h []) = true.
Proof.
  rewrite Mesh_draw_nil, forallb_app. apply andb_true_intro. split.
  - induction (edges m) as [| e es IH]; simpl; auto.
  - induction (nodes m) as [| r ns IH]; simpl; auto.
Qed.

(** [Mesh.draw()] only adds to what the context has received: five
    operations for each edge and four for each node, none of which clears
    the surface or moves its origin. *)
Theorem Mesh_draw_only_adds (m : Mesh) (h : Heap) (before : Ctx) :
  exists added : Ctx,
    Mesh_draw m h before = before ++ added /\
    List.length added
    = (5 * List.length (edges m) + 4 * List.length (nodes m))%nat /\
    forallb (fun op => negb (is_reset op)) added = true.
Proof.
  exists (Mesh_draw m h []). split; [apply Mesh_draw_app |].
  split; [| apply Mesh_draw_no_reset].
  rewrite Mesh_draw_nil, length_app.
  assert (HE : forall es, List.length (flat_map (fun e => Edge_draw h e []) es)
                          = (5 * List.length es)%nat).
  { induction es as [| e es IH]; simpl in *; [reflexivity | rewrite IH; lia]. }
  assert (HN : forall ns, List.length (flat_map (fun r => Node_draw h r []) ns)
                          = (4 * List.length ns)%nat).
  { induction ns as [| r ns IH]; simpl in *; [reflexivity | rewrite IH; lia]. }
  now rewrite HE, HN.
Qed.

Lemma Node_draw_ext (h h' : Heap) (r : loc) (ctx : Ctx) :
  x (h r) = x (h' r) -> y (h r) = y (h' r) ->
  Node_draw h r ctx = Node_draw h' r ctx.
Proof. intros Hx Hy. unfold Node_draw. now rewrite Hx, Hy. Qed.

Lemma Edge_draw_ext (h h' : Heap) (e : Edge) (ctx : Ctx) :
  (forall r, x (h r) = x (h' r) /\ y (h r) = y (h' r)) ->
  Edge_draw h e ctx = Edge_draw h' e ctx.
Proof.
  intros Hxy. unfold Edge_draw.
  destruct (Hxy (node1 e)) as [-> ->]. destruct (Hxy (node2 e)) as [-> ->].
  reflexivity.
Qed.

Lemma Mesh_draw_ext (m : Mesh) (h h' : Heap) (ctx : Ctx) :
  (forall r, x (h r) = x (h' r) /\ y (h r) = y (h' r)) ->
  Mesh_draw m h ctx = Mesh_draw m h' ctx.
Proof.
  intros Hxy. unfold Mesh_draw.
  assert (HE : forall es c, draw_edges h es c = draw_edges h' es c).
  { induction es as [| e es IH]; intros c; simpl; [reflexivity |].
    now rewrite IH, (Edge_draw_ext h h' e c Hxy). }
  assert (HN : forall ns c, draw_nodes h ns c = draw_nodes h' ns c).
  { induction ns as [| r ns IH]; intros c; simpl; [reflexivity |].
    destruct (Hxy r) as [Hx Hy].
    now rewrite IH, (Node_draw_ext h h' r c Hx Hy). }
  now rewrite HE, HN.
Qed.

(** The whole picture ignores depth: two states of the nodes that agree on
    every [x] and every [y] make [Mesh.draw()] do the same to the context,
    whatever the [z] coordinates are. *)
Theorem Mesh_draw_ignores_z (m : Mesh) (h h' : Heap) (ctx : Ctx) :
  (forall r, x (h r) = x (h' r) /\ y (h r) = y (h' r)) ->
  Mesh_draw m h ctx = Mesh_draw m h' ctx.
Proof. apply Mesh_draw_ext. Qed.

Lemma Mesh_draw_ignores_z_witness :
  (forall r, x (cube_heap r) = x (set_z 0 (cube_heap r)) /\
             y (cube_heap r) = y (set_z 0 (cube_heap r))) /\
  Mesh_draw (mkMesh cube_nodes cube_edges) cube_heap []
  = Mesh_draw (mkMesh cube_nodes cube_edges) (fun r => set_z 0 (cube_heap r)) [].
Proof.
  assert (H : forall r, x (cube_heap r) = x (set_z 0 (cube_heap r)) /\
                        y (cube_heap r) = y (set_z 0 (cube_heap r)))
    by (intros r; split; reflexivity).
  split; [exact H |].
  apply (Mesh_draw_ignores_z (mkMesh cube_nodes cube_edges) cube_heap
           (fun r => set_z 0 (cube_heap r)) [] H).
Defined.

(** ** The event loop *)

Lemma run_app {S : Type} `{Stage S} (evs1 evs2 : list Event) :
  forall ps : Pointer * S, run (evs1 ++ evs2) ps = run evs2 (run evs1 ps).
Proof. induction evs1 as [| ev evs1 IH]; intros ps; simpl; auto. Qed.

(** While the button is up nothing reaches the mesh or the surface: from a
    released state, events among which there is no press make none of the
    four calls, whatever the receiver of the calls is. *)
Theorem released_events_are_idle {S : Type} `{Stage S}
    (evs : list Event) (ps : Pointer * S) :
  MOUSE_IS_PRESSED (fst ps) = false ->
  forallb (fun ev => negb (is_down ev)) evs = true ->
  snd (run evs ps) = snd ps /\ MOUSE_IS_PRESSED (fst (run evs ps)) = false.
Proof.
  revert ps. induction evs as [| ev evs IH]; intros [p s] Hrel Hnd; simpl in *.
  - auto.
  - apply andb_prop in Hnd as [Hev Hevs].
    destruct ev as [| | cx cy]; simpl in *.
    + discriminate.
    + destruct (IH (mouseup p, s) eq_refl Hevs) as [IH1 IH2]. auto.
    + rewrite Hrel.
      destruct (IH ({| MOUSE_IS_PRESSED := MOUSE_IS_PRESSED p;
                       pMousePos := (cx, cy) |}, s) Hrel Hevs) as [IH1 IH2].
      auto.
Qed.

Lemma released_events_are_idle_witness :
  MOUSE_IS_PRESSED (fst loaded) = false /\
  forallb (fun ev => negb (is_down ev)) [Move 10 20; Up; Move 30 40] = true /\
  snd (run [Move 10 20; Up; Move 30 40] (fst loaded, @nil Call)) = [].
Proof.
  split; [reflexivity | split; [reflexivity |]].
  apply (released_events_are_idle [Move 10 20; Up; Move 30 40]
           (fst loaded, @nil Call)); reflexivity.
Defined.

Lemma moves_keep_pressed {S : Type} `{Stage S} (evs : list Event) :
  forall ps : Pointer * S,
    forallb is_move evs = true ->
    MOUSE_IS_PRESSED (fst (run evs ps)) = MOUSE_IS_PRESSED (fst ps).
Proof.
  induction evs as [| ev evs IH]; intros [p s] Hm; simpl in *.
  - reflexivity.
  - apply andb_prop in Hm as [Hev Hevs].
    destruct ev; simpl in *; try discriminate.
    now rewrite (IH _ Hevs).
Qed.

(** The pressed flag is the kind of the last button event: after a press
    followed only by moves it is set, after a release followed only by moves
    it is clear, whatever came before. *)
Theorem pressed_follows_last_button {S : Type} `{Stage S}
    (evs moves : list Event) (ps : Pointer * S) :
  forallb is_move moves = true ->
  MOUSE_IS_PRESSED (fst (run (evs ++ Down :: moves) ps)) = true /\
  MOUSE_IS_PRESSED (fst (run (evs ++ Up :: moves) ps)) = false.
Proof.
  intros Hm. rewrite !run_app. simpl.
  rewrite !(moves_keep_pressed moves _ Hm). auto.
Qed.

Lemma pressed_follows_last_button_witness :
  forallb is_move [Move 1 2; Move 3 4] = true /\
  MOUSE_IS_PRESSED
    (fst (run ([Up; Move 0 0] ++ Down :: [Move 1 2; Move 3 4]) loaded)) = true.
Proof.
  split; [reflexivity |].
  apply (pressed_follows_last_button [Up; Move 0 0] [Move 1 2; Move 3 4]
           loaded eq_refl).
Defined.

Lemma run_rotations (evs : list Event) (p : Pointer) (s : Scene) :
  exists rots : list Rotation,
    heap (snd (run evs (p, s))) = rotate_all (cube3D s) rots (heap s) /\
    cube3D (snd (run evs (p, s))) = cube3D s.
Proof.
  revert p s. induction evs as [| ev evs IH]; intros p s; simpl.
  - exists []. auto.
  - destruct ev as [| | cx cy]; simpl.
    + apply IH.
    + apply IH.
    + destruct (MOUSE_IS_PRESSED p) eqn:Hp.
      * match goal with
        | |- context [run evs (?p', ?s')] =>
            destruct (IH p' s') as (rots & Hh & Hm)
        end.
        simpl in Hh, Hm.
        exists ([RotY (diffX (cx, cy) p * (PI / 180));
                 RotX (diffY (cx, cy) p * (PI / 180))] ++ rots).
        rewrite rotate_all_app. simpl. auto.
      * apply IH.
Qed.

(** On the page the event loop touches the nodes only by rotating the mesh:
    the coordinates after any events are those after some sequence of
    [rotateY] and [rotateX] calls on the same mesh, and the two arrays of
    the mesh are never changed. *)
Theorem events_only_rotate (evs : list Event) (p : Pointer) (s : Scene) :
  exists rots : list Rotation,
    heap (snd (run evs (p, s))) = rotate_all (cube3D s) rots (heap s) /\
    cube3D (snd (run evs (p, s))) = cube3D s.
Proof. exact (run_rotations evs p s). Qed.

(** So, over the reals, the event loop keeps the shape: whatever the
    events, every node stays at its distance from the origin, two nodes that
    the mesh lists equally often stay at their distance from each other, and
    a node that the mesh does not list does not move. *)
Theorem events_keep_shape
    (evs : list Event) (p : Pointer) (s : Scene) (a b : loc) :
  count_occ Nat.eq_dec (nodes (cube3D s)) a
  = count_occ Nat.eq_dec (nodes (cube3D s)) b ->
  norm2 (heap (snd (run evs (p, s))) a) = norm2 (heap s a) /\
  dist (heap (snd (run evs (p, s))) a) (heap (snd (run evs (p, s))) b)
  = dist (heap s a) (heap s b) /\
  (count_occ Nat.eq_dec (nodes (cube3D s)) a = 0%nat ->
   heap (snd (run evs (p, s))) a = heap s a).
Proof.
  intros Hc. destruct (run_rotations evs p s) as (rots & -> & _).
  split; [apply rotate_all_norm2 |]. split.
  - unfold dist. f_equal. now apply rotate_all_dist2.
  - intros H0. apply rotate_all_other.
    now apply count_occ_not_In in H0.
Qed.

Lemma events_keep_shape_witness :
  let s := snd loaded in
  let evs := [Down; Move 10 5; Move 40 60; Up] in
  count_occ Nat.eq_dec (nodes (cube3D s)) 0%nat
  = count_occ Nat.eq_dec (nodes (cube3D s)) 6%nat /\
  dist (heap (snd (run evs (fst loaded, s))) 0%nat)
       (heap (snd (run evs (fst loaded, s))) 6%nat)
  = dist (heap s 0%nat) (heap s 6%nat).
Proof.
  cbv zeta. split; [reflexivity |].
  apply (events_keep_shape [Down; Move 10 5; Move 40 60; Up]
           (fst loaded) (snd loaded) 0%nat 6%nat).
  reflexivity.
Defined.

(** ** Drags *)

Lemma pressed_move_heap (cx cy : R) (p : Pointer) (s : Scene) (r : loc) :
  MOUSE_IS_PRESSED p = true ->
  heap (snd (mousemove cx cy (p, s))) r
  = rotX_point (INR (count_occ Nat.eq_dec (nodes (cube3D s)) r)
                * ((cy - snd (pMousePos p)) * (PI / 180)))
      (rotY_point (INR (count_occ Nat.eq_dec (nodes (cube3D s)) r)
                   * ((cx - fst (pMousePos p)) * (PI / 180)))
         (heap s r)).
Proof.
  intros Hp. unfold mousemove. rewrite Hp. simpl.
  now rewrite Mesh_rotateX_at, Mesh_rotateY_at.
Qed.

Lemma pressed_move_state (cx cy : R) (p : Pointer) (s : Scene) :
  MOUSE_IS_PRESSED p = true ->
  fst (mousemove cx cy (p, s))
  = {| MOUSE_IS_PRESSED := true; pMousePos := (cx, cy) |} /\
  cube3D (snd (mousemove cx cy (p, s))) = cube3D s.
Proof. intros Hp. unfold mousemove. rewrite Hp. simpl. auto. Qed.

(** Over the reals, a drag along a horizontal line does not depend on the
    moves it is cut into: with the button pressed, a move to [x1] and then a
    move to [x2] at the height of the previous position leave every node
    where the single move to [x2] leaves it. *)
Theorem horizontal_drag_in_two_moves
    (p : Pointer) (s : Scene) (x1 x2 : R) (r : loc) :
  MOUSE_IS_PRESSED p = true ->
  heap (snd (run [Move x1 (snd (pMousePos p)); Move x2 (snd (pMousePos p))]
               (p, s))) r
  = heap (snd (run [Move x2 (snd (pMousePos p))] (p, s))) r.
Proof.
  intros Hp. set (y0 := snd (pMousePos p)).
  change (run [Move x1 y0; Move x2 y0] (p, s))
    with (mousemove x2 y0 (mousemove x1 y0 (p, s))).
  change (run [Move x2 y0] (p, s)) with (mousemove x2 y0 (p, s)).
  destruct (pressed_move_state x1 y0 p s Hp) as [Hst Hm].
  pose proof (pressed_move_heap x1 y0 p s r Hp) as Hh.
  destruct (mousemove x1 y0 (p, s)) as [p1 s1].
  simpl in Hst, Hm, Hh.
  assert (Hp1 : MOUSE_IS_PRESSED p1 = true) by now rewrite Hst.
  rewrite (pressed_move_heap x2 y0 p1 s1 r Hp1), Hm, Hh.
  rewrite (pressed_move_heap x2 y0 p s r Hp), Hst. simpl.
  set (k := INR (count_occ Nat.eq_dec (nodes (cube3D s)) r)).
  replace (k * ((y0 - y0) * (PI / 180))) with 0 by ring.
  fold y0.
  replace (k * ((y0 - y0) * (PI / 180))) with 0 by ring.
  rewrite !rotX_point_0, rotY_point_plus. f_equal. ring.
Qed.

Lemma horizontal_drag_in_two_moves_witness :
  MOUSE_IS_PRESSED {| MOUSE_IS_PRESSED := true; pMousePos := (100, 100) |}
  = true /\
  heap (snd (run
    [Move 130 (snd (pMousePos
       {| MOUSE_IS_PRESSED := true; pMousePos := (100, 100) |}));
     Move 150 (snd (pMousePos
       {| MOUSE_IS_PRESSED := true; pMousePos := (100, 100) |}))]
    ({| MOUSE_IS_PRESSED := true; pMousePos := (100, 100) |}, snd loaded)))
    0%nat
  = heap (snd (run
    [Move 150 (snd (pMousePos
       {| MOUSE_IS_PRESSED := true; pMousePos := (100, 100) |}))]
    ({| MOUSE_IS_PRESSED := true; pMousePos := (100, 100) |}, snd loaded)))
    0%nat.
Proof.
  split; [reflexivity |].
  exact (horizontal_drag_in_two_moves
           {| MOUSE_IS_PRESSED := true; pMousePos := (100, 100) |}
           (snd loaded) 130 150 0%nat eq_refl).
Defined.

Lemma rotX_point_turns (k : nat) (n : Node) :
  rotX_point (INR k * (2 * PI)) n = n.
Proof.
  rewrite <- (rotX_point_0 n) at 2. unfold rotX_point.
  replace (INR k * (2 * PI)) with (0 + 2 * INR k * PI) by ring.
  now rewrite cos_period, sin_period.
Qed.

(** One pixel is one degree: over the reals, with the button pressed, a
    move of 360 pixels to the right, or of 360 pixels down, brings every node
    back to the coordinates it had. *)
Theorem drag_of_360_pixels_is_a_full_turn (p : Pointer) (s : Scene) (r : loc) :
  MOUSE_IS_PRESSED p = true ->
  heap (snd (mousemove (fst (pMousePos p) + 360) (snd (pMousePos p)) (p, s))) r
  = heap s r /\
  heap (snd (mousemove (fst (pMousePos p)) (snd (pMousePos p) + 360) (p, s))) r
  = heap s r.
Proof.
  intros Hp. rewrite !(pressed_move_heap _ _ p s r Hp).
  set (k := count_occ Nat.eq_dec (nodes (cube3D s)) r).
  split.
  - replace (INR k * ((snd (pMousePos p) - snd (pMousePos p)) * (PI / 180)))
      with 0 by ring.
    replace (INR k * ((fst (pMousePos p) + 360 - fst (pMousePos p)) * (PI / 180)))
      with (INR k * (2 * PI)) by field.
    now rewrite rotX_point_0, rotY_point_turns.
  - replace (INR k * ((fst (pMousePos p) - fst (pMousePos p)) * (PI / 180)))
      with 0 by ring.
    replace (INR k * ((snd (pMousePos p) + 360 - snd (pMousePos p)) * (PI / 180)))
      with (INR k * (2 * PI)) by field.
    now rewrite rotY_point_0, rotX_point_turns.
Qed.

Lemma drag_of_360_pixels_is_a_full_turn_witness :
  MOUSE_IS_PRESSED {| MOUSE_IS_PRESSED := true; pMousePos := (100, 100) |}
  = true /\
  heap (snd (mousemove
    (fst (pMousePos {| MOUSE_IS_PRESSED := true; pMousePos := (100, 100) |})
     + 360)
    (snd (pMousePos {| MOUSE_IS_PRESSED := true; pMousePos := (100, 100) |}))
    ({| MOUSE_IS_PRESSED := true; pMousePos := (100, 100) |}, snd loaded)))
    5%nat
  = heap (snd loaded) 5%nat.
Proof.
  split; [reflexivity |].
  exact (proj1 (drag_of_360_pixels_is_a_full_turn
                  {| MOUSE_IS_PRESSED := true; pMousePos := (100, 100) |}
                  (snd loaded) 5%nat eq_refl)).
Defined.

(** A pressed move that reports the previous position again turns nothing:
    every node keeps its coordinates; the surface is still cleared and the
    same picture drawn again. *)
Theorem pressed_move_in_place (p : Pointer) (s : Scene) :
  MOUSE_IS_PRESSED p = true ->
  (forall r,
     heap (snd (mousemove (fst (pMousePos p)) (snd (pMousePos p)) (p, s))) r
     = heap s r) /\
  ctx (snd (mousemove (fst (pMousePos p)) (snd (pMousePos p)) (p, s)))
  = ctx s ++ [ClearRect (-300) (-300) 600 600]
    ++ Mesh_draw (cube3D s) (heap s) [].
Proof.
  intros Hp.
  assert (Hheap : forall r,
    heap (snd (mousemove (fst (pMousePos p)) (snd (pMousePos p)) (p, s))) r
    = heap s r).
  { intros r. rewrite (pressed_move_heap _ _ p s r Hp).
    set (k := INR (count_occ Nat.eq_dec (nodes (cube3D s)) r)).
    replace (k * ((snd (pMousePos p) - snd (pMousePos p)) * (PI / 180)))
      with 0 by ring.
    replace (k * ((fst (pMousePos p) - fst (pMousePos p)) * (PI / 180)))
      with 0 by ring.
    now rewrite rotX_point_0, rotY_point_0. }
  split; [exact Hheap |].
  destruct clear_args as (E1 & E2 & E3).
  rewrite <- (Mesh_draw_ext (cube3D s) _ (heap s) []
                (fun r => conj (f_equal x (Hheap r)) (f_equal y (Hheap r)))).
  unfold mousemove. rewrite Hp. simpl.
  rewrite Mesh_draw_app, E1, E2, E3, <- app_assoc. reflexivity.
Qed.

Lemma pressed_move_in_place_witness :
  MOUSE_IS_PRESSED {| MOUSE_IS_PRESSED := true; pMousePos := (100, 100) |}
  = true /\
  forall r,
    heap (snd (mousemove
      (fst (pMousePos {| MOUSE_IS_PRESSED := true; pMousePos := (100, 100) |}))
      (snd (pMousePos {| MOUSE_IS_PRESSED := true; pMousePos := (100, 100) |}))
      ({| MOUSE_IS_PRESSED := true; pMousePos := (100, 100) |}, snd loaded))) r
    = heap (snd loaded) r.
Proof.
  split; [reflexivity |].
  exact (proj1 (pressed_move_in_place
                  {| MOUSE_IS_PRESSED := true; pMousePos := (100, 100) |}
                  (snd loaded) eq_refl)).
Defined.

(** ** The picture on the surface *)

Lemma dispatch_up_to_date (ev : Event) (ps : Pointer * Scene) :
  up_to_date (snd ps) -> up_to_date (snd (dispatch ev ps)).
Proof.
  destruct ps as [p s]. intros Hs.
  destruct ev as [| | cx cy]; simpl; try exact Hs.
  destruct (MOUSE_IS_PRESSED p); [| exact Hs].
  unfold up_to_date; simpl.
  exists (ctx s), (ClearRect (- canvas_width / 2) (- canvas_width / 2)
                             canvas_width canvas_height).
  split; [reflexivity |].
  rewrite Mesh_draw_app, <- app_assoc. reflexivity.
Qed.

(** The surface always shows the mesh as it is: if the last thing the
    context received is one drawing of the mesh at its current coordinates,
    right after a clearing or the placing of the origin, then this is still
    so after any events.  Every picture drawn after a rotation comes after a
    clearing. *)
Theorem picture_stays_up_to_date (evs : list Event) (ps : Pointer * Scene) :
  up_to_date (snd ps) -> up_to_date (snd (run evs ps)).
Proof.
  revert ps. induction evs as [| ev evs IH]; intros ps Hs; simpl.
  - exact Hs.
  - apply IH. now apply dispatch_up_to_date.
Qed.

Lemma loaded_up_to_date : up_to_date (snd loaded).
Proof.
  exists [], (Translate (canvas_width / 2) (canvas_width / 2)).
  split; [reflexivity |].
  unfold loaded. simpl ctx. simpl heap. simpl cube3D.
  now rewrite Mesh_draw_app.
Qed.

Lemma picture_stays_up_to_date_witness :
  up_to_date (snd loaded) /\
  up_to_date (snd (run [Down; Move 10 5; Up; Move 20 20] loaded)).
Proof.
  split; [exact loaded_up_to_date |].
  exact (picture_stays_up_to_date [Down; Move 10 5; Up; Move 20 20] loaded
           loaded_up_to_date).
Defined.

(** ** The cube on the page *)

Lemma loaded_eq :
  loaded
  = ({| MOUSE_IS_PRESSED := false; pMousePos := (0, 0) |},
     {| heap := Mesh_rotateX (PI / 4) (mkMesh cube_nodes cube_edges)
                  (Mesh_rotateY (PI / 4) (mkMesh cube_nodes cube_edges)
                     cube_heap);
        ctx := Mesh_draw (mkMesh cube_nodes cube_edges)
                 (Mesh_rotateX (PI / 4) (mkMesh cube_nodes cube_edges)
                    (Mesh_rotateY (PI / 4) (mkMesh cube_nodes cube_edges)
                       cube_heap))
                 [Translate (canvas_width / 2) (canvas_width / 2)];
        cube3D := mkMesh cube_nodes cube_edges |}).
Proof.
  unfold loaded. cbn [call_rotateY call_rotateX call_draw page heap ctx cube3D].
  reflexivity.
Qed.

Lemma run_loaded_rotations (evs : list Event) :
  exists rots : list Rotation,
    heap (snd (run evs loaded))
    = rotate_all (mkMesh cube_nodes cube_edges) rots cube_heap.
Proof.
  rewrite loaded_eq.
  match goal with
  | |- context [run evs (?p0, ?s0)] =>
      destruct (run_rotations evs p0 s0) as (rots & Hh & _)
  end.
  cbn [heap cube3D] in Hh.
  exists ([RotY (PI / 4); RotX (PI / 4)] ++ rots).
  rewrite rotate_all_app. cbn [rotate_all rotate]. exact Hh.
Qed.

Lemma cube_edge_dist2 (e : Edge) :
  In e cube_edges ->
  count_occ Nat.eq_dec cube_nodes (node1 e)
  = count_occ Nat.eq_dec cube_nodes (node2 e) /\
  dist2 (cube_heap (node1 e)) (cube_heap (node2 e)) = 4.
Proof.
  intros Hin. simpl in Hin.
  repeat (destruct Hin as [<- | Hin];
          [split; [reflexivity | unfold dist2; simpl; ring] |]).
  contradiction.
Qed.

Lemma cube_node_norm2 (r : loc) : norm2 (cube_heap r) = 3.
Proof.
  do 8 (destruct r as [| r]; [unfold norm2; simpl; ring |]).
  unfold norm2; simpl; ring.
Qed.

(** Over the reals the cube stays a cube: in every state the page can
    reach, each of the twelve edges joins two nodes at distance 2. *)
Theorem cube_edges_keep_length (evs : list Event) (e : Edge) :
  In e cube_edges ->
  dist (heap (snd (run evs loaded)) (node1 e))
       (heap (snd (run evs loaded)) (node2 e)) = 2.
Proof.
  intros Hin. destruct (cube_edge_dist2 e Hin) as [Hc Hd].
  destruct (run_loaded_rotations evs) as (rots & ->).
  unfold dist.
  rewrite (rotate_all_dist2 (mkMesh cube_nodes cube_edges) rots cube_heap
             (node1 e) (node2 e) Hc), Hd.
  replace 4 with (2 * 2) by ring. apply sqrt_square. lra.
Qed.

Lemma cube_edges_keep_length_witness :
  In (mkEdge 3%nat 7%nat) cube_edges /\
  dist (heap (snd (run [Down; Move 25 (-40); Move 90 10] loaded))
          (node1 (mkEdge 3%nat 7%nat)))
       (heap (snd (run [Down; Move 25 (-40); Move 90 10] loaded))
          (node2 (mkEdge 3%nat 7%nat))) = 2.
Proof.
  assert (Hin : In (mkEdge 3%nat 7%nat) cube_edges).
  { simpl. do 6 right. left. reflexivity. }
  split; [exact Hin |].
  exact (cube_edges_keep_length [Down; Move 25 (-40); Move 90 10]
           (mkEdge 3%nat 7%nat) Hin).
Defined.

(** Over the reals the cube never leaves the surface: in every state the
    page can reach, every node is at squared distance 3 from the origin, so
    the circle drawn for it, radius included, lies inside the rectangle that
    the move handler clears. *)
Theorem cube_stays_inside_cleared_rectangle (evs : list Event) (r : loc) :
  In r cube_nodes ->
  let n := heap (snd (run evs loaded)) r in
  norm2 n = 3 /\
  - canvas_width / 2 < x n * PIXELS_PER_UNIT - NODE_SIZE /\
  x n * PIXELS_PER_UNIT + NODE_SIZE < - canvas_width / 2 + canvas_width /\
  - canvas_width / 2 < y n * PIXELS_PER_UNIT - NODE_SIZE /\
  y n * PIXELS_PER_UNIT + NODE_SIZE < - canvas_width / 2 + canvas_height.
Proof.
  intros _. cbv zeta.
  destruct (run_loaded_rotations evs) as (rots & ->).
  assert (Hn : norm2 (rotate_all (mkMesh cube_nodes cube_edges) rots cube_heap r)
               = 3)
    by (rewrite rotate_all_norm2; apply cube_node_norm2).
  split; [exact Hn |].
  unfold norm2 in Hn.
  set (n := rotate_all (mkMesh cube_nodes cube_edges) rots cube_heap r) in *.
  unfold canvas_width, canvas_height, PIXELS_PER_UNIT, NODE_SIZE.
  repeat split; nra.
Qed.

Lemma cube_stays_inside_cleared_rectangle_witness :
  In 6%nat cube_nodes /\
  norm2 (heap (snd (run [Down; Move 500 500] loaded)) 6%nat) = 3.
Proof.
  assert (Hin : In 6%nat cube_nodes) by (simpl; tauto).
  split; [exact Hin |].
  exact (proj1 (cube_stays_inside_cleared_rectangle [Down; Move 500 500]
                  6%nat Hin)).
Defined.
